(** * Hasher's build recipe (build.py) over a model of its build engine

    [build.py] declares five steps with the [@provide] / [@task] decorators
    of the xeno build engine and then calls [build()].  The recipe itself is
    embedded below from the source: the step names, their kinds, their
    parameter names (which name their dependencies), the default flag and
    the bodies of [cd_local], [sources], [headers] and [objects].

    The engine (registry, resolver, executor, staleness checker and entry
    point) is not part of [src/]; its definitions are marked
    "Modelled from the spec" and follow the spec's sections 3-4. *)

From Stdlib Require Import String List Bool Arith Lia.
Import ListNotations.
Open Scope string_scope.
Open Scope list_scope.

(* ================================================================== *)
(** ** Registry *)

Inductive Kind := Provider | Task.

Record RegistryEntry := mkEntry {
  name : string;
  kind : Kind;
  parameterNames : list string;
  isDefault : bool
}.

Inductive BuildError :=
| DuplicateNameError (n : string)
| DuplicateDefaultError (n : string)
| UnknownDependencyError (requester : option string) (missing : string)
| CyclicDependencyError (cycle : list string)
| NoDefaultTaskError
| TaskExecutionError (n : string) (original : string).

Inductive result (A : Type) :=
| Ok (a : A)
| Err (e : BuildError).
Arguments Ok {A} a.
Arguments Err {A} e.

Definition bind {A B} (r : result A) (k : A -> result B) : result B :=
  match r with Ok a => k a | Err e => Err e end.
Notation "x <- r ;; k" := (bind r (fun x => k))
  (at level 61, r at next level, right associativity).

Definition Registry := list RegistryEntry.

Definition lookup (reg : Registry) (n : string) : option RegistryEntry :=
  find (fun e => String.eqb (name e) n) reg.

Definition registered (reg : Registry) (n : string) : bool :=
  match lookup reg n with Some _ => true | None => false end.

Definition default_task (reg : Registry) : option RegistryEntry :=
  find isDefault reg.

(** Modelled from the spec: [register] (section 4.1) of the engine. *)
Definition register (reg : Registry) (e : RegistryEntry) : result Registry :=
  if registered reg (name e) then Err (DuplicateNameError (name e))
  else if isDefault e && match default_task reg with Some _ => true | None => false end
  then Err (DuplicateDefaultError (name e))
  else Ok (reg ++ [e]).

Fixpoint register_all (reg : Registry) (es : list RegistryEntry) : result Registry :=
  match es with
  | [] => Ok reg
  | e :: es' => reg' <- register reg e ;; register_all reg' es'
  end.

(* ================================================================== *)
(** ** The recipe's declarations (build.py, lines 20-46)

    [@provide def cd_local()], [@provide def sources(cd_local)],
    [@provide def headers(cd_local)], [@task def objects(sources, headers)],
    [@task(default=True) def executable(objects)]. *)

Definition cd_local_decl :=
  mkEntry "cd_local" Provider [] false.
Definition sources_decl :=
  mkEntry "sources" Provider ["cd_local"] false.
Definition headers_decl :=
  mkEntry "headers" Provider ["cd_local"] false.
Definition objects_decl :=
  mkEntry "objects" Task ["sources"; "headers"] false.
Definition executable_decl :=
  mkEntry "executable" Task ["objects"] true.

Definition recipe_decls : list RegistryEntry :=
  [cd_local_decl; sources_decl; headers_decl; objects_decl; executable_decl].

Definition recipe_registry : result Registry := register_all [] recipe_decls.

(* ================================================================== *)
(** ** Resolver *)

Definition mem (n : string) (l : list string) : bool :=
  existsb (String.eqb n) l.

(** Modelled from the spec: the depth-first resolver of section 4.2.
    [visiting] is the stack of entries being expanded (cycle detection),
    [acc] the topological order built so far (visited set).  [fuel]
    bounds the depth; [resolve] gives one more than the registry size,
    which the visiting stack of distinct registered names never exceeds. *)
Fixpoint visit (fuel : nat) (reg : Registry) (requester : option string)
    (visiting : list string) (n : string) (acc : list RegistryEntry)
    : result (list RegistryEntry) :=
  match fuel with
  | O => Err (CyclicDependencyError (rev (n :: visiting)))
  | S fuel' =>
      if mem n (map name acc) then Ok acc
      else if mem n visiting then Err (CyclicDependencyError (rev (n :: visiting)))
      else match lookup reg n with
           | None => Err (UnknownDependencyError requester n)
           | Some e =>
               acc' <- fold_left
                         (fun r p => a <- r ;; visit fuel' reg (Some n) (n :: visiting) p a)
                         (parameterNames e) (Ok acc) ;;
               Ok (acc' ++ [e])
           end
  end.

Definition resolve (reg : Registry) (target : string) : result (list RegistryEntry) :=
  visit (S (length reg)) reg None [] target [].

(* ================================================================== *)
(** ** Values, filesystem and staleness *)

(** A step's value: Python's [None], a list of paths (what [sources] and
    [headers] yield), a file-backed artifact with its output and input
    paths, or any other scalar. *)
Inductive Value :=
| VNone
| VPaths (ps : list string)
| VFile (outs ins : list string)
| VOther (s : string).

(** The filesystem as seen by the staleness checker: a path's modification
    time, [None] when the path does not exist. *)
Definition FS := string -> option nat.

Definition value_paths (v : Value) : list string :=
  match v with
  | VPaths ps => ps
  | VFile outs _ => outs
  | _ => []
  end.

Definition input_paths (args : list Value) : list string :=
  flat_map value_paths args.

Definition missing (fs : FS) (p : string) : bool :=
  match fs p with None => true | Some _ => false end.

Definition older (fs : FS) (o i : string) : bool :=
  match fs o, fs i with
  | Some t_o, Some t_i => Nat.ltb t_o t_i
  | _, _ => false
  end.

(** Modelled from the spec: [isStale] (section 4.4).  [rebuilt] holds the
    output paths of the tasks (re)executed earlier in this run. *)
Definition isStale (fs : FS) (rebuilt outs ins : list string) : bool :=
  match outs with
  | [] => true
  | _ =>
      existsb (missing fs) outs
      || existsb (fun o => existsb (older fs o) ins) outs
      || existsb (fun i => mem i rebuilt) ins
  end.

(* ================================================================== *)
(** ** Executor *)

(** What an underlying function does when called: return a value or raise,
    in both cases leaving the filesystem in some state. *)
Inductive Outcome :=
| Returned (v : Value) (fs' : FS)
| Raised (exn : string) (fs' : FS).

(** ExecutionRecord entries are [(name, (value, fresh))]; [invoked] logs
    every call of an underlying function with its arguments. *)
Record ExecState := mkState {
  record : list (string * (Value * bool));
  fs : FS;
  invoked : list (string * list Value)
}.

Definition init_state (fs0 : FS) : ExecState := mkState [] fs0 [].

Fixpoint lookup_record (r : list (string * (Value * bool))) (n : string) : option Value :=
  match r with
  | [] => None
  | (m, (v, _)) :: r' => if String.eqb m n then Some v else lookup_record r' n
  end.

Definition rebuilt_paths (r : list (string * (Value * bool))) : list string :=
  flat_map (fun x : string * (Value * bool) =>
              let '(_, (v, fresh)) := x in
              if fresh then match v with VFile outs _ => outs | _ => [] end else []) r.

Definition gather (st : ExecState) (e : RegistryEntry) : result (list Value) :=
  fold_right
    (fun p racc =>
       match lookup_record (record st) p with
       | None => Err (UnknownDependencyError (Some (name e)) p)
       | Some v => vs <- racc ;; Ok (v :: vs)
       end)
    (Ok []) (parameterNames e).

Section Executor.

(** The underlying functions of the registered steps, and the outputs a
    task declares for given arguments. *)
Variable call : string -> list Value -> FS -> Outcome.
Variable declaredOutputs : string -> list Value -> list string.

Definition invoke (st : ExecState) (e : RegistryEntry) (args : list Value)
    : option BuildError * ExecState :=
  let log := invoked st ++ [(name e, args)] in
  match call (name e) args (fs st) with
  | Returned v fs' => (None, mkState (record st ++ [(name e, (v, true))]) fs' log)
  | Raised x fs' => (Some (TaskExecutionError (name e) x), mkState (record st) fs' log)
  end.

(** Modelled from the spec: one step of [execute] (section 4.3). *)
Definition exec_entry (st : ExecState) (e : RegistryEntry)
    : option BuildError * ExecState :=
  if mem (name e) (map fst (record st)) then (None, st)
  else match gather st e with
       | Err err => (Some err, st)
       | Ok args =>
           match kind e with
           | Provider => invoke st e args
           | Task =>
               let outs := declaredOutputs (name e) args in
               let ins := input_paths args in
               if isStale (fs st) (rebuilt_paths (record st)) outs ins
               then invoke st e args
               else (None, mkState (record st ++ [(name e, (VFile outs ins, false))])
                                   (fs st) (invoked st))
           end
       end.

(** Modelled from the spec: [execute] (section 4.3), fail-fast. *)
Fixpoint execute (order : list RegistryEntry) (st : ExecState)
    : option BuildError * ExecState :=
  match order with
  | [] => (None, st)
  | e :: rest =>
      match exec_entry st e with
      | (None, st') => execute rest st'
      | (Some err, st') => (Some err, st')
      end
  end.

Definition select_target (reg : Registry) (requested : option string) : result string :=
  match requested with
  | Some n => Ok n
  | None => match default_task reg with
            | Some e => Ok (name e)
            | None => Err NoDefaultTaskError
            end
  end.

(** Modelled from the spec: the entry point [build] (section 4.5).
    Selection and resolution errors are reported before any step runs. *)
Definition build (reg : Registry) (requested : option string) (fs0 : FS)
    : option BuildError * ExecState :=
  match select_target reg requested with
  | Err err => (Some err, init_state fs0)
  | Ok t =>
      match resolve reg t with
      | Err err => (Some err, init_state fs0)
      | Ok order => execute order (init_state fs0)
      end
  end.

End Executor.

(* ================================================================== *)
(** ** The recipe's function bodies (build.py, lines 20-40) *)

Module Recipe.

(** A filesystem path as its list of components; [__file__] may be
    relative, so it also records whether it is absolute. *)
Definition Path := list string.

Record PyPath := mkPyPath { p_abs : bool; p_comps : Path }.

(** The interpreter state the recipe touches: the working directory and
    the entries of each directory. *)
Record PyState := mkPyState {
  cwd : Path;
  listing : Path -> list string
}.

(** [Path(p).absolute()]: a relative path is joined to the working directory. *)
Definition absolute (st : PyState) (p : PyPath) : Path :=
  if p_abs p then p_comps p else cwd st ++ p_comps p.

(** [.parent]: the last component dropped (the root is its own parent). *)
Definition parent (p : Path) : Path := removelast p.

Definition ends_with (suffix s : string) : bool :=
  let n := String.length s in
  let m := String.length suffix in
  Nat.leb m n && String.eqb (substring (n - m) m s) suffix.

(** [Path.cwd().glob("*" ++ suffix)]: the entries of the working directory
    whose name ends with [suffix], as paths under it, in listing order. *)
Definition cwd_glob (suffix : string) (st : PyState) : list Path :=
  map (fun n => cwd st ++ [n]) (filter (ends_with suffix) (listing st (cwd st))).

(** [def cd_local(): os.chdir(Path(__file__).absolute().parent)]: returns
    [None]; its effect is the new working directory. *)
Definition cd_local (file : PyPath) (st : PyState) : Value * PyState :=
  (VNone, mkPyState (parent (absolute st file)) (listing st)).

(** [def sources(cd_local): return Path.cwd().glob("*.cc")] *)
Definition sources (cd_local : Value) (st : PyState) : list Path :=
  cwd_glob ".cc" st.

(** [def headers(cd_local): return Path.cwd().glob("*.h")] *)
Definition headers (cd_local : Value) (st : PyState) : list Path :=
  cwd_glob ".h" st.

(** A call [compile(x, headers=..., obj=..., target=..., env=...)] of the
    external C++ recipe constructor, recorded with its arguments.  [H] is
    whatever object the caller passes as [headers] (here the very generator
    object [headers] returned). *)
Record CompileCall (S H : Type) := mkCompile {
  c_input : S;
  c_headers : option H;
  c_obj : bool;
  c_target : option string;
  c_env : option string
}.
Arguments mkCompile {S H}.
Arguments c_input {S H}.
Arguments c_headers {S H}.
Arguments c_obj {S H}.

(** [def objects(sources, headers):
       return [compile(src, headers=headers, obj=True) for src in sources]] *)
Definition objects {S H : Type} (sources : list S) (headers : H) : list (CompileCall S H) :=
  map (fun src => mkCompile src (Some headers) true None None) sources.

End Recipe.

(** The registry invariant of section 3: at most one default task. *)
Definition at_most_one_default (reg : Registry) : Prop :=
  length (filter isDefault reg) <= 1.

(* ================================================================== *)
(** ** Concrete runs of the recipe

    One source [main.cc], its object [main.o] and the executable [hasher].
    [demo_fs_clean] is the tree after a complete build; in [demo_fs_edited]
    [main.cc] was edited after [main.o] was built, while [hasher] is still
    newer than [main.o]. *)

Definition demo_fs_clean : FS := fun p =>
  if String.eqb p "hasher" then Some 10
  else if String.eqb p "main.o" then Some 5
  else if String.eqb p "main.cc" then Some 1
  else None.

Definition demo_fs_edited : FS := fun p =>
  if String.eqb p "main.cc" then Some 7 else demo_fs_clean p.

Definition demo_outs (n : string) (args : list Value) : list string :=
  if String.eqb n "objects" then ["main.o"]
  else if String.eqb n "executable" then ["hasher"]
  else [].

(** Step functions that all return; [demo_failing_call] makes the compile
    of [objects] fail. *)
Definition demo_call (n : string) (args : list Value) (fs : FS) : Outcome :=
  if String.eqb n "cd_local" then Returned VNone fs
  else if String.eqb n "sources" then Returned (VPaths ["main.cc"]) fs
  else if String.eqb n "headers" then Returned (VPaths []) fs
  else Returned (VFile (demo_outs n args) (input_paths args)) fs.

Definition demo_failing_call (n : string) (args : list Value) (fs : FS) : Outcome :=
  if String.eqb n "objects" then Raised "CalledProcessError" fs
  else demo_call n args fs.

(** The state of a run on [demo_fs_edited] just before [executable]. *)
Definition demo_before_executable : ExecState :=
  snd (execute demo_call demo_outs
         [cd_local_decl; sources_decl; headers_decl; objects_decl]
         (init_state demo_fs_edited)).

(** The state of a run on [demo_fs_clean] just before [objects]. *)
Definition demo_before_objects : ExecState :=
  snd (execute demo_call demo_outs [cd_local_decl; sources_decl; headers_decl]
         (init_state demo_fs_clean)).

(* ================================================================== *)
(** ** Auxiliary lemmas *)

Lemma mem_In : forall n l, mem n l = true <-> In n l.
Proof.
  intros n l. unfold mem. rewrite existsb_exists. split.
  - intros [x [Hx Heq]]. apply String.eqb_eq in Heq. subst. exact Hx.
  - intros H. exists n. split; [exact H | apply String.eqb_refl].
Qed.

Lemma lookup_None : forall reg n, ~ In n (map name reg) -> lookup reg n = None.
Proof.
  induction reg as [|e reg IH]; intros n Hn; simpl; [reflexivity|].
  simpl in Hn. destruct (String.eqb (name e) n) eqn:E.
  - apply String.eqb_eq in E. exfalso. apply Hn. left. exact E.
  - apply IH. intros H. apply Hn. right. exact H.
Qed.

Lemma lookup_Some_In : forall reg n e, lookup reg n = Some e -> In n (map name reg).
Proof.
  induction reg as [|e' reg IH]; intros n e H; simpl in *; [discriminate|].
  destruct (String.eqb (name e') n) eqn:E.
  - left. apply String.eqb_eq. exact E.
  - right. eapply IH. exact H.
Qed.

Lemma find_None_filter : forall {A} (f : A -> bool) l, find f l = None -> filter f l = [].
Proof.
  induction l as [|x l IH]; simpl; intros H; [reflexivity|].
  destruct (f x); [discriminate | apply IH; exact H].
Qed.

(** A boolean check that an order is topological: each entry is new and
    all its parameter names were already placed. *)
Fixpoint topo_check (seen : list string) (ord : list RegistryEntry) : bool :=
  match ord with
  | [] => true
  | e :: rest =>
      negb (mem (name e) seen)
      && forallb (fun p => mem p seen) (parameterNames e)
      && topo_check (seen ++ [name e]) rest
  end.

(** Every dependency of an entry appears strictly before it, and no entry
    appears twice. *)
Definition topological (ord : list RegistryEntry) : Prop :=
  NoDup (map name ord) /\
  forall pre e post p,
    ord = pre ++ e :: post -> In p (parameterNames e) -> In p (map name pre).

Lemma topo_check_deps : forall ord seen pre e post p,
  topo_check seen ord = true -> ord = pre ++ e :: post ->
  In p (parameterNames e) -> In p (seen ++ map name pre).
Proof.
  induction ord as [|x ord IH]; intros seen pre e post p Hc Ho Hp.
  - destruct pre; discriminate.
  - simpl in Hc. apply andb_prop in Hc as [Hc Hrest]. apply andb_prop in Hc as [_ Hall].
    destruct pre as [|y pre]; simpl in Ho; injection Ho as Hxy Ho.
    + subst x. rewrite app_nil_r. rewrite forallb_forall in Hall.
      apply mem_In, Hall, Hp.
    + subst y. simpl.
      replace (seen ++ name x :: map name pre) with ((seen ++ [name x]) ++ map name pre)
        by (rewrite <- app_assoc; reflexivity).
      eapply IH; eassumption.
Qed.

Lemma topo_check_nodup : forall ord seen,
  topo_check seen ord = true -> NoDup seen -> NoDup (seen ++ map name ord).
Proof.
  induction ord as [|x ord IH]; intros seen Hc Hn; simpl.
  - rewrite app_nil_r. exact Hn.
  - simpl in Hc. apply andb_prop in Hc as [Hc Hrest]. apply andb_prop in Hc as [Hnew _].
    replace (seen ++ name x :: map name ord) with ((seen ++ [name x]) ++ map name ord)
      by (rewrite <- app_assoc; reflexivity).
    apply IH; [exact Hrest|].
    apply NoDup_app; [exact Hn | constructor; [intros []|constructor] |].
    intros y Hy [Hyx|[]]. subst y.
    apply negb_true_iff in Hnew. apply mem_In in Hy. congruence.
Qed.

Lemma topo_check_sound : forall ord, topo_check [] ord = true -> topological ord.
Proof.
  intros ord H. split.
  - apply (topo_check_nodup ord [] H). constructor.
  - intros pre e post p Ho Hp. exact (topo_check_deps ord [] pre e post p H Ho Hp).
Qed.

Lemma register_at_most_one_default : forall reg e reg',
  at_most_one_default reg -> register reg e = Ok reg' -> at_most_one_default reg'.
Proof.
  unfold at_most_one_default, register. intros reg e reg' Hreg Hr.
  destruct (registered reg (name e)); [discriminate|].
  destruct (isDefault e) eqn:Hd; simpl in Hr.
  - destruct (default_task reg) eqn:Hdt; [discriminate|].
    injection Hr as <-. rewrite filter_app. simpl. rewrite Hd.
    unfold default_task in Hdt. rewrite (find_None_filter _ _ Hdt). simpl. lia.
  - injection Hr as <-. rewrite filter_app. simpl. rewrite Hd, app_nil_r. exact Hreg.
Qed.

(* ================================================================== *)
(** ** Resolution of the recipe *)

(** C2: every declared target of the recipe resolves to a topological order
    (each dependency strictly before its dependent, no entry twice) that
    ends with the target; [resolve] is a function, so repeated calls give
    the same order; for [executable] the depth-first traversal visits
    [objects]'s parameters in declaration order, [sources] before
    [headers], giving [cd_local; sources; headers; objects; executable]. *)
Theorem recipe_resolve_topological :
  recipe_registry = Ok recipe_decls /\
  (forall t, In t (map name recipe_decls) ->
     exists ord e, resolve recipe_decls t = Ok (ord ++ [e]) /\ name e = t /\
                   topological (ord ++ [e])) /\
  resolve recipe_decls "executable" =
    Ok [cd_local_decl; sources_decl; headers_decl; objects_decl; executable_decl].
Proof.
  split; [reflexivity|]. split; [|reflexivity].
  intros t Ht. simpl in Ht.
  destruct Ht as [<-|[<-|[<-|[<-|[<-|[]]]]]].
  - exists [], cd_local_decl.
    split; [reflexivity|]; split; [reflexivity|]; apply topo_check_sound; reflexivity.
  - exists [cd_local_decl], sources_decl.
    split; [reflexivity|]; split; [reflexivity|]; apply topo_check_sound; reflexivity.
  - exists [cd_local_decl], headers_decl.
    split; [reflexivity|]; split; [reflexivity|]; apply topo_check_sound; reflexivity.
  - exists [cd_local_decl; sources_decl; headers_decl], objects_decl.
    split; [reflexivity|]; split; [reflexivity|]; apply topo_check_sound; reflexivity.
  - exists [cd_local_decl; sources_decl; headers_decl; objects_decl], executable_decl.
    split; [reflexivity|]; split; [reflexivity|]; apply topo_check_sound; reflexivity.
Qed.

(** C5: registration keeps at most one default task in a registry (a second
    default is refused with [DuplicateDefaultError]); the recipe registers
    without error and marks exactly one step, [executable], as default; so
    the bare [build()] selects [executable] and runs exactly what
    [build("executable")] runs, the resolved order
    [cd_local; sources; headers; objects; executable]. *)
Theorem recipe_default_build :
  (forall reg e reg',
     at_most_one_default reg -> register reg e = Ok reg' -> at_most_one_default reg') /\
  recipe_registry = Ok recipe_decls /\
  map name (filter isDefault recipe_decls) = ["executable"] /\
  select_target recipe_decls None = Ok "executable" /\
  (forall call outs fs0,
     build call outs recipe_decls None fs0 = build call outs recipe_decls (Some "executable") fs0 /\
     build call outs recipe_decls None fs0 =
       execute call outs [cd_local_decl; sources_decl; headers_decl; objects_decl; executable_decl]
               (init_state fs0)).
Proof.
  split; [exact register_at_most_one_default|].
  split; [reflexivity|]. split; [reflexivity|]. split; [reflexivity|].
  intros call outs fs0. split; reflexivity.
Qed.

(** C6: in the recipe every parameter name ([cd_local], [sources],
    [headers], [objects]) names exactly one registered entry, so resolving
    any declared target succeeds; resolution fails with
    [UnknownDependencyError] exactly for a name that is not registered, and
    then the error identifies that name. *)
Theorem recipe_unknown_dependency :
  (forall e p, In e recipe_decls -> In p (parameterNames e) ->
     length (filter (fun e' => String.eqb (name e') p) recipe_decls) = 1) /\
  (forall t, In t (map name recipe_decls) -> exists ord, resolve recipe_decls t = Ok ord) /\
  (forall t, ~ In t (map name recipe_decls) ->
     resolve recipe_decls t = Err (UnknownDependencyError None t)) /\
  (forall t, (exists r m, resolve recipe_decls t = Err (UnknownDependencyError r m)) <->
             ~ In t (map name recipe_decls)).
Proof.
  assert (Hok : forall t, In t (map name recipe_decls) -> exists ord, resolve recipe_decls t = Ok ord).
  { intros t Ht. simpl in Ht.
    destruct Ht as [<-|[<-|[<-|[<-|[<-|[]]]]]]; eexists; reflexivity. }
  assert (Hunk : forall t, ~ In t (map name recipe_decls) ->
            resolve recipe_decls t = Err (UnknownDependencyError None t)).
  { intros t Ht. pose proof (lookup_None _ _ Ht) as Hl. unfold resolve.
    cbn -[lookup]. rewrite Hl. reflexivity. }
  split; [|split; [exact Hok|split; [exact Hunk|]]].
  - intros e p He Hp. simpl in He.
    destruct He as [<-|[<-|[<-|[<-|[<-|[]]]]]]; simpl in Hp;
      repeat (destruct Hp as [<-|Hp]; [reflexivity|]); destruct Hp.
  - intros t. split.
    + intros [r [m Hr]] Ht. destruct (Hok t Ht) as [ord Hord]. congruence.
    + intros Ht. exists None, t. exact (Hunk t Ht).
Qed.

(* ================================================================== *)
(** ** Executor lemmas *)

Lemma NoDup_snoc : forall {A} (l : list A) x, NoDup l -> ~ In x l -> NoDup (l ++ [x]).
Proof.
  intros A l x Hl Hx. apply NoDup_app; [exact Hl | repeat constructor; intros [] |].
  intros y Hy [Hyx|[]]. subst. contradiction.
Qed.

Lemma lookup_record_app : forall r l p v,
  lookup_record r p = Some v -> lookup_record (r ++ l) p = Some v.
Proof.
  induction r as [|[m [w f]] r IH]; intros l p v H; simpl in *; [discriminate|].
  destruct (String.eqb m p); [exact H | apply IH; exact H].
Qed.

Lemma gather_spec : forall st e args, gather st e = Ok args ->
  Forall2 (fun p v => lookup_record (record st) p = Some v) (parameterNames e) args.
Proof.
  intros st e. unfold gather. generalize (parameterNames e) as ps.
  induction ps as [|p ps IH]; intros args H; simpl in H.
  - injection H as <-. constructor.
  - destruct (lookup_record (record st) p) eqn:Hp; [|discriminate].
    destruct (fold_right _ _ ps) as [vs|err] eqn:Hf; simpl in H; [|discriminate].
    injection H as <-. constructor; [exact Hp | apply IH; reflexivity].
Qed.

Lemma Forall2_lookup_app : forall ps args r l,
  Forall2 (fun p v => lookup_record r p = Some v) ps args ->
  Forall2 (fun p v => lookup_record (r ++ l) p = Some v) ps args.
Proof.
  intros ps args r l H. induction H; constructor; [apply lookup_record_app|]; assumption.
Qed.

Section ExecutorFacts.

Variable call : string -> list Value -> FS -> Outcome.
Variable outs : string -> list Value -> list string.

(** [exec_entry] only appends to the call log and to the record. *)
Lemma exec_entry_grows : forall st e r st',
  exec_entry call outs st e = (r, st') ->
  (exists l, invoked st' = invoked st ++ l) /\ (exists l, record st' = record st ++ l).
Proof.
  intros st e r st' H. unfold exec_entry, invoke in H.
  destruct (mem (name e) (map fst (record st))).
  { injection H as _ <-. split; exists []; rewrite app_nil_r; reflexivity. }
  destruct (gather st e) as [args|err].
  2: { injection H as _ <-. split; exists []; rewrite app_nil_r; reflexivity. }
  destruct (kind e);
    [|destruct (isStale _ _ _ _);
      [|injection H as _ <-; split; [exists []; rewrite app_nil_r|eexists]; reflexivity]];
    (destruct (call _ _ _); injection H as _ <-; simpl;
     (split; [eexists; reflexivity|]);
     [eexists; reflexivity | exists []; rewrite app_nil_r; reflexivity]).
Qed.

Lemma execute_grows : forall order st,
  let st' := snd (execute call outs order st) in
  (exists l, invoked st' = invoked st ++ l) /\ (exists l, record st' = record st ++ l).
Proof.
  induction order as [|e order IH]; intros st; simpl.
  - split; exists []; rewrite app_nil_r; reflexivity.
  - destruct (exec_entry call outs st e) as [[err|] st1] eqn:He;
      destruct (exec_entry_grows _ _ _ _ He) as [[l1 H1] [l2 H2]].
    + simpl. split; eauto.
    + destruct (IH st1) as [[l3 H3] [l4 H4]]. split.
      * exists (l1 ++ l3). rewrite H3, H1, app_assoc. reflexivity.
      * exists (l2 ++ l4). rewrite H4, H2, app_assoc. reflexivity.
Qed.

Lemma execute_first : forall e rest st,
  exists l, invoked (snd (execute call outs (e :: rest) st)) =
            invoked (snd (exec_entry call outs st e)) ++ l.
Proof.
  intros e rest st. simpl.
  destruct (exec_entry call outs st e) as [[err|] s1]; simpl.
  - exists []. rewrite app_nil_r. reflexivity.
  - destruct (execute_grows rest s1) as [[l Hl] _]. exists l. exact Hl.
Qed.

(** The memoisation invariant: no name called twice, and every called
    name that returned is in the record. *)
Definition once_inv (st : ExecState) : Prop :=
  NoDup (map fst (invoked st)) /\
  forall n, In n (map fst (invoked st)) -> In n (map fst (record st)).

Lemma exec_entry_once : forall st e r st',
  once_inv st -> exec_entry call outs st e = (r, st') ->
  NoDup (map fst (invoked st')) /\ (r = None -> once_inv st').
Proof.
  intros st e r st' [Hnd Hin] H. unfold exec_entry in H.
  destruct (mem (name e) (map fst (record st))) eqn:Hm.
  { injection H as <- <-. split; [exact Hnd|]. intros _. split; assumption. }
  assert (Hnew : ~ In (name e) (map fst (invoked st))).
  { intros Hi. apply Hin, mem_In in Hi. congruence. }
  destruct (gather st e) as [args|err].
  2: { injection H as <- <-. split; [exact Hnd|]. intros _. split; assumption. }
  assert (Hcall : invoke call st e args = (r, st') ->
                  NoDup (map fst (invoked st')) /\ (r = None -> once_inv st')).
  { unfold invoke. intros Hi.
    destruct (call (name e) args (fs st)) as [v fs'|x fs']; injection Hi as <- <-;
      unfold once_inv; simpl; rewrite !map_app; simpl.
    - split; [apply NoDup_snoc; assumption|]. intros _.
      split; [apply NoDup_snoc; assumption|].
      intros n. rewrite !in_app_iff. simpl.
      intros [Hn|[Hn|[]]]; [left; apply Hin; exact Hn | right; left; exact Hn].
    - split; [apply NoDup_snoc; assumption|]. discriminate. }
  destruct (kind e); [apply Hcall; exact H|].
  destruct (isStale _ _ _ _); [apply Hcall; exact H|].
  injection H as <- <-. unfold once_inv. simpl. split; [exact Hnd|]. intros _.
  split; [exact Hnd|]. intros n Hn. rewrite map_app, in_app_iff. left. apply Hin. exact Hn.
Qed.

Lemma execute_once : forall order st,
  once_inv st -> NoDup (map fst (invoked (snd (execute call outs order st)))).
Proof.
  induction order as [|e order IH]; intros st Hst; simpl; [apply Hst|].
  destruct (exec_entry call outs st e) as [[err|] st1] eqn:He;
    destruct (exec_entry_once _ _ _ _ Hst He) as [Hnd Hinv]; simpl.
  - exact Hnd.
  - apply IH, Hinv. reflexivity.
Qed.

(** A step either calls nothing or calls [e]'s function once, with the
    arguments gathered from the record. *)
Lemma exec_entry_log : forall st e r st',
  exec_entry call outs st e = (r, st') ->
  invoked st' = invoked st \/
  exists args, gather st e = Ok args /\ invoked st' = invoked st ++ [(name e, args)].
Proof.
  intros st e r st' H. unfold exec_entry, invoke in H.
  destruct (mem (name e) (map fst (record st))); [injection H as _ <-; left; reflexivity|].
  destruct (gather st e) as [args|err] eqn:Hg; [|injection H as _ <-; left; reflexivity].
  assert (Hc : forall r' st'',
            match call (name e) args (fs st) with
            | Returned v fs' => (None, mkState (record st ++ [(name e, (v, true))]) fs'
                                                (invoked st ++ [(name e, args)]))
            | Raised x fs' => (Some (TaskExecutionError (name e) x),
                               mkState (record st) fs' (invoked st ++ [(name e, args)]))
            end = (r', st'') ->
            invoked st'' = invoked st ++ [(name e, args)]).
  { intros r' st'' Hi. destruct (call _ _ _); injection Hi as _ <-; reflexivity. }
  destruct (kind e); [right; exists args; split; [reflexivity | exact (Hc _ _ H)]|].
  destruct (isStale _ _ _ _); [right; exists args; split; [reflexivity | exact (Hc _ _ H)]|].
  injection H as _ <-. left. reflexivity.
Qed.

(** Every logged call of a name is a call of an entry of [es] with the
    values its parameter names have in the record. *)
Definition args_inv (es : list RegistryEntry) (st : ExecState) : Prop :=
  forall n args, In (n, args) (invoked st) ->
    exists e, In e es /\ name e = n /\
      Forall2 (fun p v => lookup_record (record st) p = Some v) (parameterNames e) args.

Lemma exec_entry_args : forall es st e r st',
  args_inv es st -> In e es -> exec_entry call outs st e = (r, st') -> args_inv es st'.
Proof.
  intros es st e r st' Hinv He H.
  destruct (exec_entry_grows _ _ _ _ H) as [_ [l Hl]].
  intros n args Hn.
  destruct (exec_entry_log _ _ _ _ H) as [Heq | [a [Hg Heq]]]; rewrite Heq in Hn.
  - destruct (Hinv n args Hn) as [e' [He' [Hname Hf]]].
    exists e'. rewrite Hl. split; [exact He'|]. split; [exact Hname|].
    apply Forall2_lookup_app. exact Hf.
  - apply in_app_iff in Hn. destruct Hn as [Hn | [Hn | []]].
    + destruct (Hinv n args Hn) as [e' [He' [Hname Hf]]].
      exists e'. rewrite Hl. split; [exact He'|]. split; [exact Hname|].
      apply Forall2_lookup_app. exact Hf.
    + injection Hn as <- <-. exists e. split; [exact He|]. split; [reflexivity|].
      rewrite Hl. apply Forall2_lookup_app. apply gather_spec. exact Hg.
Qed.

Lemma execute_args : forall es order st,
  incl order es -> args_inv es st -> args_inv es (snd (execute call outs order st)).
Proof.
  intros es. induction order as [|e order IH]; intros st Hincl Hst; simpl; [exact Hst|].
  destruct (exec_entry call outs st e) as [[err|] st1] eqn:He;
    pose proof (exec_entry_args _ _ _ _ _ Hst (Hincl e (or_introl eq_refl)) He) as H1;
    simpl; [exact H1|].
  apply IH; [|exact H1]. intros x Hx. apply Hincl. right. exact Hx.
Qed.

End ExecutorFacts.

(* ================================================================== *)
(** ** Memoisation *)

(** C1: within one run no step's underlying function is called twice, for
    any order and whatever the functions do; for the recipe's default build,
    [cd_local], a dependency of both [sources] and [headers], is called
    exactly once, and when [sources] and [headers] are called they both
    receive the single value recorded for [cd_local]. *)
Theorem execute_memoizes_diamond :
  forall call outs,
    (forall order fs0,
       NoDup (map fst (invoked (snd (execute call outs order (init_state fs0)))))) /\
    (forall fs0,
       let st := snd (build call outs recipe_decls None fs0) in
       count_occ string_dec (map fst (invoked st)) "cd_local" = 1 /\
       (forall a1 a2, In ("sources", a1) (invoked st) -> In ("headers", a2) (invoked st) ->
          exists v, lookup_record (record st) "cd_local" = Some v /\ a1 = [v] /\ a2 = [v])).
Proof.
  intros call outs.
  assert (Hnd : forall order fs0,
            NoDup (map fst (invoked (snd (execute call outs order (init_state fs0)))))).
  { intros order fs0. apply execute_once. split; [constructor | intros n []]. }
  split; [exact Hnd|]. intros fs0.
  destruct (proj2 (proj2 (proj2 (proj2 recipe_default_build))) call outs fs0) as [_ Hb].
  cbv zeta. rewrite Hb. split.
  - apply (NoDup_count_occ' string_dec); [apply Hnd|].
    destruct (execute_first call outs cd_local_decl
                [sources_decl; headers_decl; objects_decl; executable_decl] (init_state fs0))
      as [l Hl].
    rewrite Hl.
    replace (invoked (snd (exec_entry call outs (init_state fs0) cd_local_decl)))
      with [("cd_local", @nil Value)]
      by (unfold exec_entry, invoke; simpl; destruct (call "cd_local" [] fs0); reflexivity).
    left. reflexivity.
  - intros a1 a2 H1 H2.
    assert (Ha : args_inv recipe_decls
                   (snd (execute call outs recipe_decls (init_state fs0)))).
    { apply execute_args; [intros x Hx; exact Hx | intros n args []]. }
    destruct (Ha _ _ H1) as [e1 [He1 [Hn1 Hf1]]].
    destruct (Ha _ _ H2) as [e2 [He2 [Hn2 Hf2]]].
    simpl in He1, He2.
    destruct He1 as [<-|[<-|[<-|[<-|[<-|[]]]]]]; try discriminate Hn1.
    destruct He2 as [<-|[<-|[<-|[<-|[<-|[]]]]]]; try discriminate Hn2.
    simpl in Hf1, Hf2.
    inversion Hf1 as [|p1 v1 ps1 vs1 Hv1 Hr1]; subst.
    inversion Hr1; subst.
    inversion Hf2 as [|p2 v2 ps2 vs2 Hv2 Hr2]; subst.
    inversion Hr2; subst.
    exists v1. rewrite Hv1 in Hv2. injection Hv2 as <-.
    split; [exact Hv1|]. split; reflexivity.
Qed.

(* ================================================================== *)
(** ** Staleness *)

Lemma execute_app : forall call outs pre rest st,
  execute call outs (pre ++ rest) st =
  match execute call outs pre st with
  | (None, s1) => execute call outs rest s1
  | r => r
  end.
Proof.
  intros call outs pre. induction pre as [|e pre IH]; intros rest st; simpl.
  - reflexivity.
  - destruct (exec_entry call outs st e) as [[err|] s1]; [reflexivity|]. apply IH.
Qed.

Lemma isStale_iff : forall fs rebuilt outs ins, outs <> [] ->
  (isStale fs rebuilt outs ins = true <->
   (exists o, In o outs /\ fs o = None) \/
   (exists o i t_o t_i, In o outs /\ In i ins /\ fs o = Some t_o /\ fs i = Some t_i /\ t_o < t_i) \/
   (exists i, In i ins /\ In i rebuilt)).
Proof.
  intros fs rebuilt outs ins Hne.
  assert (HA : existsb (missing fs) outs = true <-> exists o, In o outs /\ fs o = None).
  { rewrite existsb_exists. unfold missing.
    split; intros [o [Ho Hm]]; exists o; split; try exact Ho; destruct (fs o); congruence. }
  assert (HB : existsb (fun o => existsb (older fs o) ins) outs = true <->
               exists o i t_o t_i, In o outs /\ In i ins /\ fs o = Some t_o /\
                                   fs i = Some t_i /\ t_o < t_i).
  { rewrite existsb_exists. split.
    - intros [o [Ho Hi]]. apply existsb_exists in Hi. destruct Hi as [i [Hi Hold]].
      unfold older in Hold. destruct (fs o) as [t_o|] eqn:Eo; [|discriminate].
      destruct (fs i) as [t_i|] eqn:Ei; [|discriminate].
      apply Nat.ltb_lt in Hold. exists o, i, t_o, t_i. repeat split; assumption.
    - intros [o [i [t_o [t_i [Ho [Hi [Eo [Ei Hlt]]]]]]]]. exists o. split; [exact Ho|].
      apply existsb_exists. exists i. split; [exact Hi|].
      unfold older. rewrite Eo, Ei. apply Nat.ltb_lt. exact Hlt. }
  assert (HC : existsb (fun i => mem i rebuilt) ins = true <-> exists i, In i ins /\ In i rebuilt).
  { rewrite existsb_exists. split; intros [i [Hi Hr]]; exists i; split; try exact Hi;
      apply mem_In; exact Hr. }
  unfold isStale. destruct outs as [|o0 os]; [congruence|].
  rewrite !orb_true_iff, HA, HB, HC. tauto.
Qed.

Lemma rebuilt_paths_iff : forall r p,
  In p (rebuilt_paths r) <->
  exists n os is, In (n, (VFile os is, true)) r /\ In p os.
Proof.
  intros r p. unfold rebuilt_paths. rewrite in_flat_map. split.
  - intros [[n [v f]] [Hx Hp]]. destruct f; [|destruct Hp].
    destruct v; try destruct Hp. exists n, outs, ins. split; assumption.
  - intros [n [os [is [Hx Hp]]]]. exists (n, (VFile os is, true)). split; assumption.
Qed.

(** C3: a file-backed task (one declaring at least one output) is stale
    exactly when an output is missing, or an output is older than an
    input, or an input is an output of a task (re)executed earlier in this
    run (a fresh file-backed record entry); and in the last case the
    executor calls the task's function whatever the timestamps say. *)
Theorem staleness_policy :
  (forall fs rebuilt outs ins, outs <> [] ->
     (isStale fs rebuilt outs ins = true <->
      (exists o, In o outs /\ fs o = None) \/
      (exists o i t_o t_i, In o outs /\ In i ins /\ fs o = Some t_o /\ fs i = Some t_i /\
                           t_o < t_i) \/
      (exists i, In i ins /\ In i rebuilt))) /\
  (forall r p, In p (rebuilt_paths r) <->
     exists n os is, In (n, (VFile os is, true)) r /\ In p os) /\
  (forall call outs st e args,
     kind e = Task -> ~ In (name e) (map fst (record st)) -> gather st e = Ok args ->
     outs (name e) args <> [] ->
     (exists i, In i (input_paths args) /\ In i (rebuilt_paths (record st))) ->
     invoked (snd (exec_entry call outs st e)) = invoked st ++ [(name e, args)]).
Proof.
  split; [exact isStale_iff|]. split; [exact rebuilt_paths_iff|].
  intros call outs st e args Hk Hnew Hg Hne Hreb.
  assert (Hs : isStale (fs st) (rebuilt_paths (record st)) (outs (name e) args)
                       (input_paths args) = true).
  { apply isStale_iff; [exact Hne|]. right. right. exact Hreb. }
  unfold exec_entry. destruct (mem (name e) (map fst (record st))) eqn:Hm.
  { apply mem_In in Hm. contradiction. }
  rewrite Hg, Hk, Hs. unfold invoke. destruct (call _ _ _); reflexivity.
Qed.

(** C4: a task whose declared outputs all exist and are newer than every
    existing input, none of whose inputs was rebuilt in this run, is not
    called: the executor records the artifact synthesised from the
    existing files ([fresh] false) and leaves the filesystem and the call
    log unchanged.  Both tasks of the recipe, [objects] and [executable],
    are tasks subject to this rule. *)
Theorem up_to_date_task_skipped :
  kind objects_decl = Task /\ kind executable_decl = Task /\
  forall call outs st e args,
    kind e = Task -> ~ In (name e) (map fst (record st)) -> gather st e = Ok args ->
    outs (name e) args <> [] ->
    (forall o, In o (outs (name e) args) ->
       exists t_o, fs st o = Some t_o /\
         forall i t_i, In i (input_paths args) -> fs st i = Some t_i -> t_i < t_o) ->
    (forall i, In i (input_paths args) -> ~ In i (rebuilt_paths (record st))) ->
    exec_entry call outs st e =
      (None, mkState (record st ++ [(name e, (VFile (outs (name e) args) (input_paths args), false))])
                     (fs st) (invoked st)).
Proof.
  split; [reflexivity|]. split; [reflexivity|].
  intros call outs st e args Hk Hnew Hg Hne Hnewer Hnoreb.
  assert (Hs : isStale (fs st) (rebuilt_paths (record st)) (outs (name e) args)
                       (input_paths args) = false).
  { apply not_true_iff_false. rewrite isStale_iff by exact Hne.
    intros [[o [Ho Hm]] | [[o [i [t_o [t_i [Ho [Hi [Eo [Ei Hlt]]]]]]]] | [i [Hi Hr]]]].
    - destruct (Hnewer o Ho) as [t [Ht _]]. congruence.
    - destruct (Hnewer o Ho) as [t [Ht Hall]]. rewrite Eo in Ht. injection Ht as <-.
      specialize (Hall i t_i Hi Ei). lia.
    - exact (Hnoreb i Hi Hr). }
  unfold exec_entry. destruct (mem (name e) (map fst (record st))) eqn:Hm.
  { apply mem_In in Hm. contradiction. }
  rewrite Hg, Hk, Hs. reflexivity.
Qed.

(* ================================================================== *)
(** ** Fail-fast execution *)

(** C7: when a step's function raises [x], [execute] stops with
    [TaskExecutionError] carrying the step's name and [x]; no later step of
    the order is called (the log ends with the failing call), the record of
    the steps completed before is kept, and the filesystem is the one the
    failing call left: nothing the earlier steps produced is rolled back. *)
Theorem execute_fail_fast : forall call outs pre e post st s1 args x fs',
  execute call outs pre st = (None, s1) ->
  ~ In (name e) (map fst (record s1)) ->
  gather s1 e = Ok args ->
  (kind e = Provider \/
   isStale (fs s1) (rebuilt_paths (record s1)) (outs (name e) args) (input_paths args) = true) ->
  call (name e) args (fs s1) = Raised x fs' ->
  execute call outs (pre ++ e :: post) st =
    (Some (TaskExecutionError (name e) x),
     mkState (record s1) fs' (invoked s1 ++ [(name e, args)])).
Proof.
  intros call outs pre e post st s1 args x fs' Hpre Hnew Hg Hrun Hcall.
  rewrite execute_app, Hpre. simpl.
  assert (Hinv : invoke call s1 e args =
                 (Some (TaskExecutionError (name e) x),
                  mkState (record s1) fs' (invoked s1 ++ [(name e, args)]))).
  { unfold invoke. rewrite Hcall. reflexivity. }
  unfold exec_entry. destruct (mem (name e) (map fst (record s1))) eqn:Hm.
  { apply mem_In in Hm. contradiction. }
  rewrite Hg. destruct (kind e) eqn:Hk.
  - rewrite Hinv. reflexivity.
  - destruct Hrun as [Hrun|Hrun]; [discriminate|]. rewrite Hrun, Hinv. reflexivity.
Qed.

(* ================================================================== *)
(** ** The recipe's bodies *)

(** C8: [cd_local] returns [None] and acts only on the working directory;
    [sources] and [headers] never read their [cd_local] parameter, so any
    two values bound to it give the same result in the same interpreter
    state. *)
Theorem sources_headers_ignore_cd_local : forall file st v1 v2,
  fst (Recipe.cd_local file st) = VNone /\
  Recipe.listing (snd (Recipe.cd_local file st)) = Recipe.listing st /\
  Recipe.sources v1 st = Recipe.sources v2 st /\
  Recipe.headers v1 st = Recipe.headers v2 st.
Proof.
  intros file st v1 v2. repeat split.
Qed.

(** C9: [objects] maps the compile step over [sources] one to one and in
    order: the i-th element is [compile(src_i, headers=headers, obj=True)],
    every element is built with [obj=True] and receives the same [headers]
    object. *)
Theorem objects_maps_compile : forall (S H : Type) (srcs : list S) (h : H),
  length (Recipe.objects srcs h) = length srcs /\
  (forall i src, nth_error srcs i = Some src ->
     nth_error (Recipe.objects srcs h) i = Some (Recipe.mkCompile src (Some h) true None None)) /\
  Forall (fun c => Recipe.c_obj c = true /\ Recipe.c_headers c = Some h)
         (Recipe.objects srcs h).
Proof.
  intros S H srcs h. unfold Recipe.objects. split; [apply length_map|]. split.
  - intros i src Hi. rewrite nth_error_map, Hi. reflexivity.
  - induction srcs as [|src srcs IH]; constructor; [split; reflexivity | exact IH].
Qed.

(* ================================================================== *)
(** ** Witnesses on the concrete runs *)

(** On the edited tree [objects] is rebuilt; [executable] is then called
    although [hasher] is newer than its input [main.o]. *)
Lemma staleness_policy_witness :
  isStale demo_fs_edited [] ["hasher"] ["main.o"] = false /\
  invoked (snd (exec_entry demo_call demo_outs demo_before_executable executable_decl)) =
  invoked demo_before_executable ++ [("executable", [VFile ["main.o"] ["main.cc"]])].
Proof.
  split; [reflexivity|].
  apply (proj2 (proj2 staleness_policy)).
  - reflexivity.
  - vm_compute. intros [H|[H|[H|[H|[]]]]]; discriminate H.
  - vm_compute. reflexivity.
  - vm_compute. discriminate.
  - exists "main.o". vm_compute. split; left; reflexivity.
Defined.

(** On the clean tree [objects] is up to date and is not called. *)
Lemma up_to_date_task_skipped_witness :
  exec_entry demo_call demo_outs demo_before_objects objects_decl =
    (None, mkState (record demo_before_objects ++
                    [("objects", (VFile ["main.o"] ["main.cc"], false))])
                   demo_fs_clean (invoked demo_before_objects)).
Proof.
  apply (proj2 (proj2 up_to_date_task_skipped) demo_call demo_outs demo_before_objects
           objects_decl [VPaths ["main.cc"]; VPaths []]).
  - reflexivity.
  - vm_compute. intros [H|[H|[H|[]]]]; discriminate H.
  - vm_compute. reflexivity.
  - vm_compute. discriminate.
  - vm_compute. intros o [<-|[]]. exists 5. split; [reflexivity|].
    intros i t_i [<-|[]] Hi. injection Hi as <-. lia.
  - vm_compute. intros i [<-|[]] [].
Defined.

(** A failing compile of [objects] aborts the default build: [executable]
    is never called and the earlier steps' results stay recorded. *)
Lemma execute_fail_fast_witness :
  execute demo_failing_call demo_outs recipe_decls (init_state demo_fs_edited) =
    (Some (TaskExecutionError "objects" "CalledProcessError"),
     mkState [("cd_local", (VNone, true)); ("sources", (VPaths ["main.cc"], true));
              ("headers", (VPaths [], true))]
             demo_fs_edited
             [("cd_local", []); ("sources", [VNone]); ("headers", [VNone]);
              ("objects", [VPaths ["main.cc"]; VPaths []])]).
Proof.
  apply (execute_fail_fast demo_failing_call demo_outs
           [cd_local_decl; sources_decl; headers_decl] objects_decl [executable_decl]
           (init_state demo_fs_edited)
           (mkState [("cd_local", (VNone, true)); ("sources", (VPaths ["main.cc"], true));
                     ("headers", (VPaths [], true))]
                    demo_fs_edited
                    [("cd_local", []); ("sources", [VNone]); ("headers", [VNone])])).
  - reflexivity.
  - simpl. intros [H|[H|[H|[]]]]; discriminate H.
  - reflexivity.
  - right. reflexivity.
  - reflexivity.
Defined.

(* ================================================================== *)
(** ** Strings: [ends_with] as a suffix test *)

Lemma str_length_append : forall a b,
  String.length (String.append a b) = String.length a + String.length b.
Proof. induction a as [|c a IH]; intros b; simpl; [reflexivity | rewrite IH; reflexivity]. Qed.

Lemma str_append_assoc : forall a b c,
  String.append (String.append a b) c = String.append a (String.append b c).
Proof. induction a as [|x a IH]; intros b c; simpl; [reflexivity | rewrite IH; reflexivity]. Qed.

Lemma substring_0_length : forall s, substring 0 (String.length s) s = s.
Proof. induction s as [|c s IH]; simpl; [reflexivity | rewrite IH; reflexivity]. Qed.

Lemma substring_after_prefix : forall pre suf,
  substring (String.length pre) (String.length suf) (String.append pre suf) = suf.
Proof.
  induction pre as [|c pre IH]; intros suf; simpl; [apply substring_0_length | apply IH].
Qed.

Lemma substring_split : forall k s, k <= String.length s ->
  s = String.append (substring 0 k s) (substring k (String.length s - k) s).
Proof.
  induction k as [|k IH]; intros s Hk.
  - rewrite Nat.sub_0_r, substring_0_length. destruct s; reflexivity.
  - destruct s as [|c s]; simpl in Hk; [lia|]. simpl.
    rewrite <- (IH s) by lia. reflexivity.
Qed.

Lemma ends_with_iff : forall suffix s,
  Recipe.ends_with suffix s = true <-> exists pre, s = String.append pre suffix.
Proof.
  intros suffix s. unfold Recipe.ends_with. rewrite andb_true_iff, Nat.leb_le, String.eqb_eq.
  split.
  - intros [Hle Heq]. exists (substring 0 (String.length s - String.length suffix) s).
    rewrite (substring_split (String.length s - String.length suffix) s) at 1 by lia.
    replace (String.length s - (String.length s - String.length suffix))
      with (String.length suffix) by lia.
    rewrite Heq. reflexivity.
  - intros [pre ->]. rewrite str_length_append. split; [lia|].
    replace (String.length pre + String.length suffix - String.length suffix)
      with (String.length pre) by lia.
    apply substring_after_prefix.
Qed.

Lemma cc_not_h : forall s,
  Recipe.ends_with ".cc" s = true -> Recipe.ends_with ".h" s = false.
Proof.
  intros s Hcc. apply not_true_iff_false. intros Hh.
  apply ends_with_iff in Hcc as [p1 H1]. apply ends_with_iff in Hh as [p2 H2].
  assert (Hc : Recipe.ends_with "c" s = true).
  { apply ends_with_iff. exists (String.append p1 ".c").
    rewrite str_append_assoc. exact H1. }
  assert (Hh : Recipe.ends_with "h" s = true).
  { apply ends_with_iff. exists (String.append p2 ".").
    rewrite str_append_assoc. exact H2. }
  unfold Recipe.ends_with in Hc, Hh.
  apply andb_true_iff in Hc as [_ Hc]. apply andb_true_iff in Hh as [_ Hh].
  apply String.eqb_eq in Hc. apply String.eqb_eq in Hh.
  change (String.length "c") with 1 in Hc. change (String.length "h") with 1 in Hh.
  rewrite Hc in Hh. discriminate Hh.
Qed.

(* ================================================================== *)
(** ** Further properties of the recipe's bodies *)

Lemma cwd_glob_iff : forall suffix st p,
  In p (Recipe.cwd_glob suffix st) <->
  exists n pre, In n (Recipe.listing st (Recipe.cwd st)) /\
                n = String.append pre suffix /\ p = Recipe.cwd st ++ [n].
Proof.
  intros suffix st p. unfold Recipe.cwd_glob. rewrite in_map_iff. split.
  - intros [n [<- Hn]]. apply filter_In in Hn as [Hn He].
    apply ends_with_iff in He as [pre Hpre]. exists n, pre. auto.
  - intros [n [pre [Hn [Hpre ->]]]]. exists n. split; [reflexivity|].
    apply filter_In. split; [exact Hn|]. apply ends_with_iff. exists pre. exact Hpre.
Qed.

(** [sources] yields exactly the entries of the working directory whose
    name ends in [.cc], [headers] exactly those ending in [.h], each as a
    path directly under the working directory. *)
Theorem sources_headers_glob_spec : forall v st p,
  (In p (Recipe.sources v st) <->
   exists n pre, In n (Recipe.listing st (Recipe.cwd st)) /\
                 n = String.append pre ".cc" /\ p = Recipe.cwd st ++ [n]) /\
  (In p (Recipe.headers v st) <->
   exists n pre, In n (Recipe.listing st (Recipe.cwd st)) /\
                 n = String.append pre ".h" /\ p = Recipe.cwd st ++ [n]).
Proof. intros v st p. split; apply cwd_glob_iff. Qed.

(** Every compile call of [objects] over the globbed sources takes one of
    the [.cc] sources, never a file that [headers] yields. *)
Theorem objects_never_compile_headers : forall v st (h : list Recipe.Path) c,
  In c (Recipe.objects (Recipe.sources v st) h) ->
  In (Recipe.c_input c) (Recipe.sources v st) /\
  ~ In (Recipe.c_input c) (Recipe.headers v st).
Proof.
  intros v st h c Hc. unfold Recipe.objects in Hc. apply in_map_iff in Hc as [src [<- Hs]].
  simpl. split; [exact Hs|]. intros Hh.
  unfold Recipe.sources, Recipe.headers, Recipe.cwd_glob in Hs, Hh.
  apply in_map_iff in Hs as [n1 [E1 H1]]. apply in_map_iff in Hh as [n2 [E2 H2]].
  rewrite <- E2 in E1. apply app_inv_head in E1. injection E1 as ->.
  apply filter_In in H1 as [_ H1]. apply filter_In in H2 as [_ H2].
  rewrite (cc_not_h _ H1) in H2. discriminate H2.
Qed.




(* ================================================================== *)
(** ** Witnesses for the recipe's bodies *)

Lemma sources_headers_disjoint_witness :
  let st := Recipe.mkPyState ["home"; "hasher"]
              (fun _ => ["main.cc"; "hasher.h"; "build.py"]) in
  Recipe.objects (Recipe.sources VNone st) (Recipe.headers VNone st) =
    [Recipe.mkCompile ["home"; "hasher"; "main.cc"] (Some [["home"; "hasher"; "hasher.h"]])
                      true None None] /\
  ~ In ["home"; "hasher"; "main.cc"]
       (Recipe.headers VNone (Recipe.mkPyState ["home"; "hasher"]
                                 (fun _ => ["main.cc"; "hasher.h"; "build.py"]))).
Proof.
  cbv zeta. split; [reflexivity|].
  apply (objects_never_compile_headers VNone
           (Recipe.mkPyState ["home"; "hasher"] (fun _ => ["main.cc"; "hasher.h"; "build.py"]))
           [] (Recipe.mkCompile ["home"; "hasher"; "main.cc"] (Some []) true None None)).
  left. reflexivity.
Defined.



